(** * Row materialisation of the Select chip

  A shallow embedding of [crates/core/include/prelude.hpp] and
  [crates/core/include/select.hpp]: the two templates [event_to_row] and
  [instr_to_row] of namespace [monerochan_recursion_core_sys::select], the
  row types they write, and the trace buffers whose rows they are handed
  by reference. *)

From Stdlib Require Import ZArith.
From stdpp Require Import base option list vector.

(** ** The element type

  Both templates are generic in [class F]; the only member the source asks
  of it is [F::one()].  [zero] is the additive identity the description of
  padding rows refers to. *)

Class Field (F : Type) : Type := { zero : F; one : F }.

(** ** prelude.hpp

  [array_t<T, N>] is [std::array<T, N>] on the host and
  [cuda::std::array<T, N>] under [__CUDACC__]: in both branches a sequence
  of exactly [N] elements of [T], read and written by position.  The
  prelude of namespace [monerochan_core_machine_sys] declares the same
  alias. *)

Definition array_t (T : Type) (N : nat) : Type := vec T N.

(** ** Row and record types

  Modelled from the spec: the generated header
  [monerochan-recursion-core-sys-cbindgen.hpp] that declares [SelectEvent],
  [SelectCols], [SelectInstr] and [SelectPreprocessedCols] is not part of
  the sources.  Their members are the ones select.hpp names; the tuple
  lengths [NV] (values of an event) and [NA] (addresses of an instruction)
  are fixed per circuit version and left as parameters.

  select.hpp assigns a whole [SelectEvent<F>] to [cols.vals], so an event
  is the tuple of values itself. *)

Definition SelectEvent (F : Type) (NV : nat) : Type := array_t F NV.

Record SelectCols (F : Type) (NV : nat) : Type :=
  MkSelectCols { vals : SelectEvent F NV }.
Arguments MkSelectCols {F NV} _.
Arguments vals {F NV} _.

Module SelectInstr.
Record t (F : Type) (NA : nat) : Type :=
  mk { addrs : array_t F NA; mult1 : F; mult2 : F }.
Arguments mk {F NA} _ _ _.
Arguments addrs {F NA} _.
Arguments mult1 {F NA} _.
Arguments mult2 {F NA} _.
End SelectInstr.

Module SelectPreprocessedCols.
Record t (F : Type) (NA : nat) : Type :=
  mk { is_real : F; addrs : array_t F NA; mult1 : F; mult2 : F }.
Arguments mk {F NA} _ _ _ _.
Arguments is_real {F NA} _.
Arguments addrs {F NA} _.
Arguments mult1 {F NA} _.
Arguments mult2 {F NA} _.

(** Member assignments [cols.m = x]: one member changes, the others keep
    the value they had. *)
Definition set_is_real {F NA} (x : F) (c : t F NA) : t F NA :=
  mk x (addrs c) (mult1 c) (mult2 c).
Definition set_addrs {F NA} (x : array_t F NA) (c : t F NA) : t F NA :=
  mk (is_real c) x (mult1 c) (mult2 c).
Definition set_mult1 {F NA} (x : F) (c : t F NA) : t F NA :=
  mk (is_real c) (addrs c) x (mult2 c).
Definition set_mult2 {F NA} (x : F) (c : t F NA) : t F NA :=
  mk (is_real c) (addrs c) (mult1 c) x.
End SelectPreprocessedCols.

(** [cols.vals = x] on a main-trace row. *)
Definition set_vals {F NV} (x : SelectEvent F NV) (c : SelectCols F NV)
  : SelectCols F NV := MkSelectCols x.

(** ** The store

    The templates take their input by [const&] and their destination by
    [&].  A reference designates an object of one of four buffers: the
    recorded events, the instructions, and the two trace matrices (one row
    per element).  A reference is the position of the object in its buffer. *)

Record mem (F : Type) (NV NA : nat) : Type := Mem {
  events : list (SelectEvent F NV);
  instrs : list (SelectInstr.t F NA);
  cols : list (SelectCols F NV);
  prep : list (SelectPreprocessedCols.t F NA)
}.
Arguments Mem {F NV NA} _ _ _ _.
Arguments events {F NV NA} _.
Arguments instrs {F NV NA} _.
Arguments cols {F NV NA} _.
Arguments prep {F NV NA} _.

(** A computation over the store.  [None] stands for the use of a reference
    that designates no object, which C++ leaves undefined; the source has no
    other way to fail. *)
Definition St (F : Type) (NV NA : nat) (A : Type) : Type :=
  mem F NV NA -> option (A * mem F NV NA).

(** One per-row invocation: row [i] of the main trace from event [i], or
    row [i] of the preprocessed trace from instruction [i]. *)
Inductive task : Type :=
  | EventRow (i : nat)
  | InstrRow (i : nat).

#[export] Instance task_eq_dec : EqDecision task.
Proof. solve_decision. Defined.

(** The assignment statements of the two bodies, for the invocation on
    row [i]. *)
Inductive stmt : Type :=
  | AssignVals (i : nat)
  | AssignIsReal (i : nat)
  | AssignAddrs (i : nat)
  | AssignMult1 (i : nat)
  | AssignMult2 (i : nat).

#[export] Instance stmt_eq_dec : EqDecision stmt.
Proof. solve_decision. Defined.

(** What a [const SelectEvent<F>&] can designate: an element of the recorded
    events, or the [vals] member of a row of the main trace, which has the
    same type. *)
Inductive eref : Type :=
  | InEvents (k : nat)
  | InRow (k : nat).

#[export] Instance eref_eq_dec : EqDecision eref.
Proof. solve_decision. Defined.

Section Select.
Context {F : Type} `{!Field F} {NV NA : nat}.

Local Abbreviation mem := (mem F NV NA).
Local Abbreviation St := (St F NV NA).

#[export] Instance St_ret : MRet St := fun A (a : A) m => Some (a, m).

#[export] Instance St_bind : MBind St := fun A B (k : A -> St B) (c : St A) m =>
  match c m with
  | Some (a, m') => k a m'
  | None => None
  end.

(** Reading through a [const&]. *)
Definition load_event (r : nat) : St (SelectEvent F NV) :=
  fun m => match events m !! r with
           | Some e => Some (e, m)
           | None => None
           end.

Definition load_instr (r : nat) : St (SelectInstr.t F NA) :=
  fun m => match instrs m !! r with
           | Some i => Some (i, m)
           | None => None
           end.

(** Assigning to a member of the row behind a [&]: the row is changed in
    place, the rest of the store stays. *)
Definition store_cols (r : nat) (f : SelectCols F NV -> SelectCols F NV)
  : St unit :=
  fun m => match cols m !! r with
           | Some _ =>
               Some (tt, Mem (events m) (instrs m) (alter f r (cols m)) (prep m))
           | None => None
           end.

Definition store_prep (r : nat)
    (f : SelectPreprocessedCols.t F NA -> SelectPreprocessedCols.t F NA)
  : St unit :=
  fun m => match prep m !! r with
           | Some _ =>
               Some (tt, Mem (events m) (instrs m) (cols m) (alter f r (prep m)))
           | None => None
           end.

(** ** select.hpp *)

(** [cols.vals = event;] *)
Definition event_to_row (event cols : nat) : St unit :=
  e ← load_event event;
  store_cols cols (set_vals e).

(** The four statements of [instr_to_row], each on its own:
    [cols.is_real = F::one();] *)
Definition assign_is_real (cols : nat) : St unit :=
  store_prep cols (SelectPreprocessedCols.set_is_real one).

(** [cols.addrs = instr.addrs;] *)
Definition assign_addrs (instr cols : nat) : St unit :=
  i ← load_instr instr;
  store_prep cols (SelectPreprocessedCols.set_addrs (SelectInstr.addrs i)).

(** [cols.mult1 = instr.mult1;] *)
Definition assign_mult1 (instr cols : nat) : St unit :=
  i ← load_instr instr;
  store_prep cols (SelectPreprocessedCols.set_mult1 (SelectInstr.mult1 i)).

(** [cols.mult2 = instr.mult2;] *)
Definition assign_mult2 (instr cols : nat) : St unit :=
  i ← load_instr instr;
  store_prep cols (SelectPreprocessedCols.set_mult2 (SelectInstr.mult2 i)).

(** The body of [instr_to_row]: the four statements, in the order of the
    source. *)
Definition instr_to_row (instr cols : nat) : St unit :=
  assign_is_real cols;;
  assign_addrs instr cols;;
  assign_mult1 instr cols;;
  assign_mult2 instr cols.

(** [event_to_row] with an event reference of either kind.  The body is the
    one of select.hpp, [cols.vals = event;]: the event is read through the
    reference at the time of the call, from the events or from the row it
    designates. *)
Definition deref (m : mem) (r : eref) : option (SelectEvent F NV) :=
  match r with
  | InEvents k => events m !! k
  | InRow k => vals <$> cols m !! k
  end.

Definition load_event_ref (r : eref) : St (SelectEvent F NV) :=
  fun m => match deref m r with
           | Some e => Some (e, m)
           | None => None
           end.

Definition event_to_row_ref (event : eref) (cols : nat) : St unit :=
  e ← load_event_ref event;
  store_cols cols (set_vals e).

(** ** The rows the two templates leave behind

    What the assignments of each body amount to, as a value: used to state
    and prove the properties below, and checked against the store-level
    definitions in [event_to_row_run] and [instr_to_row_run]. *)
Definition row_of_event (e : SelectEvent F NV) : SelectCols F NV :=
  MkSelectCols e.

Definition row_of_instr (i : SelectInstr.t F NA)
  : SelectPreprocessedCols.t F NA :=
  SelectPreprocessedCols.mk
    one (SelectInstr.addrs i) (SelectInstr.mult1 i) (SelectInstr.mult2 i).

(** ** Materialising a trace

    Modelled from the spec: the driver that invokes the templates is not
    part of the sources.  Its description (one invocation per row, row [i]
    of a matrix filled from element [i] of the input sequence, in any order
    of completion) is a schedule of per-row tasks.  [materialize] runs the
    invocations of a schedule one after the other. *)
Definition run_task (t : task) : St unit :=
  match t with
  | EventRow i => event_to_row i i
  | InstrRow i => instr_to_row i i
  end.

Fixpoint materialize (s : list task) : St unit :=
  match s with
  | [] => mret tt
  | t :: s' => run_task t;; materialize s'
  end.

(** The references of a task designate objects of the store. *)
Definition task_ok (m : mem) (t : task) : Prop :=
  match t with
  | EventRow i => i < length (events m) ∧ i < length (cols m)
  | InstrRow i => i < length (instrs m) ∧ i < length (prep m)
  end.

(** Invocations that run at the same time interleave their statements.  One
    statement of the invocation on row [i], both references at [i]: *)
Definition run_stmt (s : stmt) : St unit :=
  match s with
  | AssignVals i => event_to_row i i
  | AssignIsReal i => assign_is_real i
  | AssignAddrs i => assign_addrs i i
  | AssignMult1 i => assign_mult1 i i
  | AssignMult2 i => assign_mult2 i i
  end.

Fixpoint run_stmts (l : list stmt) : St unit :=
  match l with
  | [] => mret tt
  | s :: l' => run_stmt s;; run_stmts l'
  end.

(** The statements of one invocation, in program order, and of a whole
    schedule run invocation after invocation. *)
Definition body (t : task) : list stmt :=
  match t with
  | EventRow i => [AssignVals i]
  | InstrRow i => [AssignIsReal i; AssignAddrs i; AssignMult1 i; AssignMult2 i]
  end.

Definition stmts (s : list task) : list stmt := s ≫= body.

(** The references of a statement designate objects of the store. *)
Definition stmt_ok (m : mem) (s : stmt) : Prop :=
  match s with
  | AssignVals i => i < length (events m) ∧ i < length (cols m)
  | AssignIsReal i => i < length (prep m)
  | AssignAddrs i | AssignMult1 i | AssignMult2 i =>
      i < length (instrs m) ∧ i < length (prep m)
  end.

#[export] Instance stmt_ok_dec m s : Decision (stmt_ok m s).
Proof. destruct s; cbn; apply _. Defined.

(** The row a statement writes, and what it does to that row of either
    matrix. *)
Definition row (s : stmt) : nat :=
  match s with
  | AssignVals i | AssignIsReal i | AssignAddrs i | AssignMult1 i
  | AssignMult2 i => i
  end.

Definition cols_effect (m : mem) (s : stmt) : SelectCols F NV -> SelectCols F NV :=
  match s with
  | AssignVals i =>
      match events m !! i with Some e => set_vals e | None => id end
  | _ => id
  end.

Definition prep_effect (m : mem) (s : stmt)
  : SelectPreprocessedCols.t F NA -> SelectPreprocessedCols.t F NA :=
  match s with
  | AssignVals _ => id
  | AssignIsReal _ => SelectPreprocessedCols.set_is_real one
  | AssignAddrs i =>
      match instrs m !! i with
      | Some x => SelectPreprocessedCols.set_addrs (SelectInstr.addrs x)
      | None => id
      end
  | AssignMult1 i =>
      match instrs m !! i with
      | Some x => SelectPreprocessedCols.set_mult1 (SelectInstr.mult1 x)
      | None => id
      end
  | AssignMult2 i =>
      match instrs m !! i with
      | Some x => SelectPreprocessedCols.set_mult2 (SelectInstr.mult2 x)
      | None => id
      end
  end.

(** The store a statement leaves behind when its references are good. *)
Definition apply_stmt (s : stmt) (m : mem) : mem :=
  Mem (events m) (instrs m)
      (alter (cols_effect m s) (row s) (cols m))
      (alter (prep_effect m s) (row s) (prep m)).

(** Modelled from the spec: the default that produces padding rows is not
    part of the sources; it is described as all-zero, every member at the
    additive identity of [F]. *)
Definition padding_row : SelectPreprocessedCols.t F NA :=
  SelectPreprocessedCols.mk zero (vreplicate NA zero) zero zero.

End Select.

(** ** A concrete element type

    Canonical representatives as integers, to run the definitions on the
    scenarios of the specification. *)
#[export] Instance Z_Field : Field Z := {| zero := 0%Z; one := 1%Z |}.

(** Branch A selected: one event, its instruction, and one row of each matrix
    holding arbitrary earlier contents. *)
Definition scenario_a : mem Z 4 3 :=
  Mem [ [# 7; 1; 2; 42]%Z ]
      [ SelectInstr.mk [# 7; 1; 2]%Z 1%Z 0%Z ]
      [ MkSelectCols [# 11; 12; 13; 14]%Z ]
      [ SelectPreprocessedCols.mk 5%Z [# 9; 9; 9]%Z 5%Z 5%Z ].

(** Branch B selected: the same addresses, another event, other earlier
    contents. *)
Definition scenario_b : mem Z 4 3 :=
  Mem [ [# 7; 1; 2; 43]%Z ]
      [ SelectInstr.mk [# 7; 1; 2]%Z 0%Z 1%Z ]
      [ MkSelectCols [# 0; 0; 0; 0]%Z ]
      [ SelectPreprocessedCols.mk 0%Z [# 0; 0; 0]%Z 0%Z 0%Z ].

(** A trace of three rows, two of them backed by an instruction; the
    preprocessed matrix starts out as padding. *)
Definition scenario_padded : mem Z 4 3 :=
  Mem [ [# 7; 1; 2; 42]%Z; [# 8; 3; 4; 43]%Z ]
      [ SelectInstr.mk [# 7; 1; 2]%Z 1%Z 0%Z; SelectInstr.mk [# 8; 3; 4]%Z 0%Z 1%Z ]
      (replicate 3 (MkSelectCols [# 0; 0; 0; 0]%Z))
      (replicate 3 padding_row).

(** The same trace, the rows that are backed by an instruction holding other
    earlier contents. *)
Definition scenario_dirty : mem Z 4 3 :=
  Mem [ [# 7; 1; 2; 42]%Z; [# 8; 3; 4; 43]%Z ]
      [ SelectInstr.mk [# 7; 1; 2]%Z 1%Z 0%Z; SelectInstr.mk [# 8; 3; 4]%Z 0%Z 1%Z ]
      [ MkSelectCols [# 11; 12; 13; 14]%Z; MkSelectCols [# 21; 22; 23; 24]%Z;
        MkSelectCols [# 0; 0; 0; 0]%Z ]
      [ SelectPreprocessedCols.mk 5%Z [# 9; 9; 9]%Z 5%Z 5%Z;
        SelectPreprocessedCols.mk 0%Z [# 6; 6; 6]%Z 3%Z 4%Z;
        padding_row ].

(** One event and a main trace of three rows with distinct contents. *)
Definition scenario_rows : mem Z 4 3 :=
  Mem [ [# 7; 1; 2; 42]%Z ]
      [ ]
      [ MkSelectCols [# 0; 0; 0; 0]%Z; MkSelectCols [# 1; 1; 1; 1]%Z;
        MkSelectCols [# 2; 2; 2; 2]%Z ]
      [ ].

(** * Properties *)

Section SelectFacts.
Context {F : Type} `{!Field F} {NV NA : nat}.

Local Abbreviation mem := (mem F NV NA).

Implicit Types (m : mem) (e : SelectEvent F NV) (c : SelectCols F NV).
Implicit Types (i : SelectInstr.t F NA) (p : SelectPreprocessedCols.t F NA).

(** *** In-place updates of a buffer *)

Lemma alter_lookup_insert {A} (f : A -> A) (l : list A) k x :
  l !! k = Some x -> alter f k l = <[k := f x]> l.
Proof.
  intros Hk. apply list_eq. intros j.
  assert (k < length l) by eauto using lookup_lt_Some.
  destruct (decide (k = j)) as [<-|Hne].
  - now rewrite list_lookup_alter_eq, list_lookup_insert_eq, Hk.
  - now rewrite list_lookup_alter_ne, list_lookup_insert_ne.
Qed.

Lemma alter_comm {A} (f g : A -> A) (l : list A) j k :
  (j = k -> forall x, f (g x) = g (f x)) ->
  alter f j (alter g k l) = alter g k (alter f j l).
Proof.
  intros Hfg. destruct (decide (j = k)) as [->|Hne].
  - rewrite !list_alter_alter_eq. apply list_alter_ext; [|reflexivity].
    intros x _. cbn. now apply Hfg.
  - now apply list_alter_alter_ne.
Qed.

Lemma lookup_cases {A} (l : list A) k :
  (k < length l /\ exists x, l !! k = Some x)
  \/ (~ k < length l /\ l !! k = None).
Proof.
  destruct (l !! k) as [x|] eqn:Hk.
  - left. split; [eauto using lookup_lt_Some|eauto].
  - right. split; [|reflexivity]. apply lookup_ge_None in Hk. lia.
Qed.

(** *** What one invocation does to the store *)

Lemma event_to_row_run m ev cl e c :
  events m !! ev = Some e ->
  cols m !! cl = Some c ->
  event_to_row ev cl m
  = Some (tt, Mem (events m) (instrs m)
                  (<[cl := row_of_event e]> (cols m)) (prep m)).
Proof.
  intros Hev Hcl.
  unfold event_to_row, mbind, St_bind, load_event, store_cols.
  rewrite Hev. cbn. rewrite Hcl.
  now rewrite (alter_lookup_insert _ _ _ _ Hcl).
Qed.

Lemma event_to_row_inv m ev cl u m' :
  event_to_row ev cl m = Some (u, m') ->
  exists e c, events m !! ev = Some e /\ cols m !! cl = Some c.
Proof.
  unfold event_to_row, mbind, St_bind, load_event, store_cols.
  destruct (events m !! ev) as [e|]; [cbn|discriminate].
  destruct (cols m !! cl) as [c|]; [|discriminate].
  intros _. now exists e, c.
Qed.

Lemma instr_to_row_run m ir cl i p :
  instrs m !! ir = Some i ->
  prep m !! cl = Some p ->
  instr_to_row ir cl m
  = Some (tt, Mem (events m) (instrs m) (cols m)
                  (<[cl := row_of_instr i]> (prep m))).
Proof.
  intros Hir Hcl.
  unfold instr_to_row, assign_is_real, assign_addrs, assign_mult1,
    assign_mult2, mbind, St_bind, load_instr, store_prep.
  repeat (first [rewrite Hcl | rewrite Hir | rewrite list_lookup_alter_eq]; cbn).
  rewrite !list_alter_alter_eq.
  now rewrite (alter_lookup_insert _ _ _ _ Hcl).
Qed.

Lemma instr_to_row_inv m ir cl u m' :
  instr_to_row ir cl m = Some (u, m') ->
  exists i p, instrs m !! ir = Some i /\ prep m !! cl = Some p.
Proof.
  unfold instr_to_row, assign_is_real, assign_addrs, mbind, St_bind,
    load_instr, store_prep.
  destruct (prep m !! cl) as [p|]; [cbn|discriminate].
  destruct (instrs m !! ir) as [i|]; [|discriminate].
  intros _. now exists i, p.
Qed.

(** *** Statements *)

Lemma run_stmt_spec m s :
  run_stmt s m
  = if decide (stmt_ok m s) then Some (tt, apply_stmt s m) else None.
Proof.
  destruct m as [evs ins cls prs].
  destruct s as [k|k|k|k|k];
    unfold run_stmt, apply_stmt, event_to_row, assign_is_real, assign_addrs,
      assign_mult1, assign_mult2, mbind, St_bind,
      load_event, load_instr, store_cols, store_prep;
    cbn [row cols_effect prep_effect stmt_ok events instrs cols prep];
    rewrite ?(list_alter_id id) by reflexivity;
    destruct (lookup_cases evs k) as [[? [e He]]|[? He]];
    destruct (lookup_cases ins k) as [[? [i Hi]]|[? Hi]];
    destruct (lookup_cases cls k) as [[? [c Hc]]|[? Hc]];
    destruct (lookup_cases prs k) as [[? [p Hp]]|[? Hp]];
    rewrite ?He, ?Hi; cbn [events instrs cols prep]; rewrite ?Hc, ?Hp;
    case_decide as Hok; first [reflexivity|exfalso; tauto].
Qed.

Lemma stmt_ok_apply m a b : stmt_ok (apply_stmt a m) b <-> stmt_ok m b.
Proof. destruct b; cbn; rewrite ?length_alter; reflexivity. Qed.

Lemma cols_effect_comm m a b x :
  row a = row b ->
  cols_effect m a (cols_effect m b x) = cols_effect m b (cols_effect m a x).
Proof.
  destruct a, b; cbn; intros ->; reflexivity.
Qed.

Lemma prep_effect_comm m a b x :
  row a = row b ->
  prep_effect m a (prep_effect m b x) = prep_effect m b (prep_effect m a x).
Proof.
  destruct a, b; cbn; intros ->; try reflexivity;
    destruct (instrs m !! _); reflexivity.
Qed.

Lemma effects_apply m a b :
  cols_effect (apply_stmt b m) a = cols_effect m a
  /\ prep_effect (apply_stmt b m) a = prep_effect m a.
Proof. destruct a; split; reflexivity. Qed.

Lemma apply_stmt_comm m a b :
  apply_stmt a (apply_stmt b m) = apply_stmt b (apply_stmt a m).
Proof.
  destruct (effects_apply m a b) as [Hca Hpa].
  destruct (effects_apply m b a) as [Hcb Hpb].
  unfold apply_stmt at 1 3. rewrite Hca, Hpa, Hcb, Hpb.
  cbn [events instrs cols prep apply_stmt].
  f_equal.
  - apply alter_comm. intros Hab x. now apply cols_effect_comm.
  - apply alter_comm. intros Hab x. now apply prep_effect_comm.
Qed.

Lemma run_stmts_cons s l m :
  run_stmts (s :: l) m
  = if decide (stmt_ok m s) then run_stmts l (apply_stmt s m) else None.
Proof.
  cbn [run_stmts]. unfold mbind, St_bind. rewrite run_stmt_spec.
  now case_decide.
Qed.

Lemma run_stmts_swap a b l m :
  run_stmts (a :: b :: l) m = run_stmts (b :: a :: l) m.
Proof.
  rewrite !run_stmts_cons.
  destruct (decide (stmt_ok m a)) as [Ha|Ha], (decide (stmt_ok m b)) as [Hb|Hb].
  - rewrite !decide_True by now apply stmt_ok_apply.
    now rewrite apply_stmt_comm.
  - now rewrite decide_False by now rewrite stmt_ok_apply.
  - now rewrite decide_False by now rewrite stmt_ok_apply.
  - reflexivity.
Qed.

Lemma run_stmts_perm l1 l2 :
  l1 ≡ₚ l2 -> forall m, run_stmts l1 m = run_stmts l2 m.
Proof.
  induction 1 as [|s l1 l2 _ IH|a b l|l1 l2 l3 _ IH1 _ IH2]; intros m.
  - reflexivity.
  - rewrite !run_stmts_cons. case_decide; [apply IH|reflexivity].
  - apply run_stmts_swap.
  - now rewrite IH1.
Qed.

Lemma run_stmts_total l :
  forall m, Forall (stmt_ok m) l -> exists m', run_stmts l m = Some (tt, m').
Proof.
  induction l as [|s l IH]; intros m Hok.
  - now exists m.
  - apply Forall_cons in Hok as [Hs Hl].
    rewrite run_stmts_cons, decide_True by exact Hs.
    apply IH. eapply Forall_impl; [exact Hl|].
    intros b Hb. now apply stmt_ok_apply.
Qed.

Lemma run_stmts_app l1 l2 :
  forall m,
    run_stmts (l1 ++ l2) m
    = match run_stmts l1 m with
      | Some (_, m') => run_stmts l2 m'
      | None => None
      end.
Proof.
  induction l1 as [|s l1 IH]; intros m.
  - reflexivity.
  - cbn [app]. rewrite !run_stmts_cons. case_decide; [apply IH|reflexivity].
Qed.

(** *** Invocations as sequences of statements *)

Lemma run_task_body t m : run_task t m = run_stmts (body t) m.
Proof.
  destruct t as [k|k]; cbn [run_task body].
  - change (event_to_row k k m) with (run_stmt (AssignVals k) m).
    rewrite run_stmts_cons, run_stmt_spec. now case_decide.
  - change (instr_to_row k k m)
      with ((run_stmt (AssignIsReal k);; run_stmt (AssignAddrs k);;
             run_stmt (AssignMult1 k);; run_stmt (AssignMult2 k)) m).
    unfold mbind, St_bind. rewrite !run_stmts_cons, !run_stmt_spec.
    repeat (case_decide; [rewrite ?run_stmt_spec|reflexivity]).
    reflexivity.
Qed.

Lemma materialize_stmts s :
  forall m, materialize s m = run_stmts (stmts s) m.
Proof.
  induction s as [|t s IH]; intros m.
  - reflexivity.
  - unfold stmts. rewrite bind_cons, run_stmts_app, <- run_task_body.
    cbn [materialize]. unfold mbind at 1, St_bind.
    destruct (run_task t m) as [[u m']|]; [apply IH|reflexivity].
Qed.

Lemma task_ok_body m t : task_ok m t -> Forall (stmt_ok m) (body t).
Proof. destruct t; cbn; intros [? ?]; repeat constructor; assumption. Qed.

Lemma schedule_ok_stmts m s :
  Forall (task_ok m) s -> Forall (stmt_ok m) (stmts s).
Proof.
  intros Hok. unfold stmts. apply Forall_bind.
  eapply Forall_impl; [exact Hok|]. intros t. apply task_ok_body.
Qed.

Lemma materialize_total s m :
  Forall (task_ok m) s -> exists m', materialize s m = Some (tt, m').
Proof.
  intros Hok. rewrite materialize_stmts.
  now apply run_stmts_total, schedule_ok_stmts.
Qed.

(** *** Rows outside a schedule *)

Lemma run_task_prep_other m t u m' j :
  run_task t m = Some (u, m') ->
  t <> InstrRow j ->
  prep m' !! j = prep m !! j.
Proof.
  intros Hrun Hne. destruct t as [k|k]; cbn [run_task] in Hrun.
  - destruct (event_to_row_inv _ _ _ _ _ Hrun) as (e & c & He & Hc).
    rewrite (event_to_row_run _ _ _ _ _ He Hc) in Hrun.
    now injection Hrun as _ <-.
  - destruct (instr_to_row_inv _ _ _ _ _ Hrun) as (i & p & Hi & Hp).
    rewrite (instr_to_row_run _ _ _ _ _ Hi Hp) in Hrun.
    injection Hrun as _ <-. cbn.
    apply list_lookup_insert_ne. congruence.
Qed.

Lemma materialize_prep_other s j :
  InstrRow j ∉ s ->
  forall m u m', materialize s m = Some (u, m') -> prep m' !! j = prep m !! j.
Proof.
  induction s as [|t s IH]; intros Hj m u m' Hrun.
  - cbn in Hrun. now inversion Hrun.
  - apply not_elem_of_cons in Hj as [Hne Hj].
    cbn [materialize] in Hrun. unfold mbind at 1, St_bind in Hrun.
    destruct (run_task t m) as [[u1 m1]|] eqn:E; [|discriminate].
    rewrite (IH Hj _ _ _ Hrun).
    eapply run_task_prep_other; [exact E|congruence].
Qed.

(** *** One invocation, in closed form *)

Lemma event_to_row_spec m ev cl :
  event_to_row ev cl m
  = match events m !! ev, cols m !! cl with
    | Some e, Some _ =>
        Some (tt, Mem (events m) (instrs m)
                      (<[cl := row_of_event e]> (cols m)) (prep m))
    | _, _ => None
    end.
Proof.
  destruct (events m !! ev) as [e|] eqn:He, (cols m !! cl) as [c|] eqn:Hc;
    try (eapply event_to_row_run; eassumption);
    destruct (event_to_row ev cl m) as [[u m']|] eqn:E; try reflexivity;
    apply event_to_row_inv in E as (e' & c' & He' & Hc'); congruence.
Qed.

Lemma instr_to_row_spec m ir cl :
  instr_to_row ir cl m
  = match instrs m !! ir, prep m !! cl with
    | Some i, Some _ =>
        Some (tt, Mem (events m) (instrs m) (cols m)
                      (<[cl := row_of_instr i]> (prep m)))
    | _, _ => None
    end.
Proof.
  destruct (instrs m !! ir) as [i|] eqn:Hi, (prep m !! cl) as [p|] eqn:Hp;
    try (eapply instr_to_row_run; eassumption);
    destruct (instr_to_row ir cl m) as [[u m']|] eqn:E; try reflexivity;
    apply instr_to_row_inv in E as (i' & p' & Hi' & Hp'); congruence.
Qed.

Lemma lookup_insert_same {A} (l : list A) k x y :
  l !! k = Some y -> <[k := x]> l !! k = Some x.
Proof. intros Hk. apply list_lookup_insert_eq. eauto using lookup_lt_Some. Qed.

(** *** A run of a schedule, row by row *)

Lemma mem_eq m1 m2 :
  events m1 = events m2 -> instrs m1 = instrs m2 ->
  cols m1 = cols m2 -> prep m1 = prep m2 -> m1 = m2.
Proof. destruct m1, m2; cbn; congruence. Qed.

Lemma materialize_step t s m u m' :
  materialize (t :: s) m = Some (u, m') ->
  exists m1, run_task t m = Some (tt, m1) /\ materialize s m1 = Some (u, m').
Proof.
  cbn [materialize]. unfold mbind at 1, St_bind.
  destruct (run_task t m) as [[[] m1]|]; [|discriminate].
  intros Hrun. now exists m1.
Qed.

(** What one task leaves in the store. *)
Lemma run_task_rows t m u m1 :
  run_task t m = Some (u, m1) ->
  task_ok m t
  /\ events m1 = events m /\ instrs m1 = instrs m
  /\ (forall j, cols m1 !! j
                = if decide (t = EventRow j)
                  then row_of_event <$> events m !! j else cols m !! j)
  /\ (forall j, prep m1 !! j
                = if decide (t = InstrRow j)
                  then row_of_instr <$> instrs m !! j else prep m !! j).
Proof.
  destruct t as [k|k]; cbn [run_task];
    [rewrite event_to_row_spec|rewrite instr_to_row_spec].
  - destruct (events m !! k) as [e|] eqn:He; [|discriminate].
    destruct (cols m !! k) as [c|] eqn:Hc; [|discriminate].
    intros [= <- <-]. cbn. split; [split; eapply lookup_lt_Some; eassumption|].
    do 2 (split; [reflexivity|]). split; intros j.
    + case_decide as Hj.
      * injection Hj as <-. rewrite He. cbn.
        eapply lookup_insert_same; eassumption.
      * apply list_lookup_insert_ne. congruence.
    + now rewrite decide_False by discriminate.
  - destruct (instrs m !! k) as [i|] eqn:Hi; [|discriminate].
    destruct (prep m !! k) as [p|] eqn:Hp; [|discriminate].
    intros [= <- <-]. cbn. split; [split; eapply lookup_lt_Some; eassumption|].
    do 2 (split; [reflexivity|]). split; intros j.
    + now rewrite decide_False by discriminate.
    + case_decide as Hj.
      * injection Hj as <-. rewrite Hi. cbn.
        eapply lookup_insert_same; eassumption.
      * apply list_lookup_insert_ne. congruence.
Qed.

Lemma lookup_length_eq {A} (l1 l2 : list A) :
  (forall j, is_Some (l1 !! j) <-> is_Some (l2 !! j)) -> length l1 = length l2.
Proof.
  intros Hd.
  destruct (Nat.lt_trichotomy (length l1) (length l2)) as [Hlt|[Heq|Hlt]];
    [|exact Heq|].
  - apply lookup_lt_is_Some_2, Hd, lookup_lt_is_Some_1 in Hlt. lia.
  - apply lookup_lt_is_Some_2, Hd, lookup_lt_is_Some_1 in Hlt. lia.
Qed.

Lemma materialize_lookup s :
  forall m m',
    materialize s m = Some (tt, m') ->
    events m' = events m /\ instrs m' = instrs m
    /\ (forall j, cols m' !! j
                  = if decide (EventRow j ∈ s)
                    then row_of_event <$> events m !! j else cols m !! j)
    /\ (forall j, prep m' !! j
                  = if decide (InstrRow j ∈ s)
                    then row_of_instr <$> instrs m !! j else prep m !! j).
Proof.
  induction s as [|t s IH]; intros m m' Hrun.
  - cbn in Hrun. injection Hrun as <-.
    do 2 (split; [reflexivity|]).
    split; intros j; now rewrite decide_False by apply not_elem_of_nil.
  - apply materialize_step in Hrun as (m1 & Ht & Hs).
    apply run_task_rows in Ht as (_ & He1 & Hi1 & Hc1 & Hp1).
    apply IH in Hs as (He & Hi & Hc & Hp).
    rewrite He, Hi, He1, Hi1. do 2 (split; [reflexivity|]).
    split; intros j.
    + rewrite Hc, He1, Hc1.
      destruct (decide (EventRow j ∈ s)) as [Hin|Hout].
      * now rewrite decide_True by (right; exact Hin).
      * destruct (decide (t = EventRow j)) as [->|Hne].
        -- now rewrite decide_True by left.
        -- rewrite decide_False; [reflexivity|].
           intros [Heq|Hin]%elem_of_cons; congruence.
    + rewrite Hp, Hi1, Hp1.
      destruct (decide (InstrRow j ∈ s)) as [Hin|Hout].
      * now rewrite decide_True by (right; exact Hin).
      * destruct (decide (t = InstrRow j)) as [->|Hne].
        -- now rewrite decide_True by left.
        -- rewrite decide_False; [reflexivity|].
           intros [Heq|Hin]%elem_of_cons; congruence.
Qed.

(** A run that completes had good references throughout, and a schedule
    with a bad reference does not complete. *)
Lemma materialize_ok_inv s :
  forall m u m', materialize s m = Some (u, m') -> Forall (task_ok m) s.
Proof.
  induction s as [|t s IH]; intros m u m' Hrun; [constructor|].
  apply materialize_step in Hrun as (m1 & Ht & Hs).
  apply run_task_rows in Ht as (Hok & He1 & Hi1 & Hc1 & Hp1).
  constructor; [exact Hok|].
  assert (Hlc : length (cols m1) = length (cols m)).
  { apply lookup_length_eq. intros j. rewrite Hc1. case_decide as Hj; [|done].
    subst t. destruct Hok as [Hke Hkc].
    rewrite fmap_is_Some. split; intros _; now apply lookup_lt_is_Some_2. }
  assert (Hlp : length (prep m1) = length (prep m)).
  { apply lookup_length_eq. intros j. rewrite Hp1. case_decide as Hj; [|done].
    subst t. destruct Hok as [Hki Hkp].
    rewrite fmap_is_Some. split; intros _; now apply lookup_lt_is_Some_2. }
  eapply Forall_impl; [exact (IH _ _ _ Hs)|].
  intros [k|k]; cbn; rewrite ?He1, ?Hi1, ?Hlc, ?Hlp; done.
Qed.

End SelectFacts.

(** * The claims *)

Section SelectClaims.
Context {F : Type} `{!Field F} {NV NA : nat}.

Local Abbreviation mem := (mem F NV NA).

Implicit Types (m : mem) (e : SelectEvent F NV) (c : SelectCols F NV).
Implicit Types (i : SelectInstr.t F NA) (p : SelectPreprocessedCols.t F NA).

(** C1. Round trip of the event through the row: for every event [e] and
    every destination row, [event_to_row] completes, and reading the row
    afterwards gives back [e], as a whole and position by position, in the
    original order. *)
Theorem event_to_row_roundtrip m ev cl e c :
  events m !! ev = Some e ->
  cols m !! cl = Some c ->
  exists m' c',
    event_to_row ev cl m = Some (tt, m')
    /\ cols m' !! cl = Some c'
    /\ vals c' = e
    /\ forall k : fin NV, vals c' !!! k = e !!! k.
Proof.
  intros He Hc.
  eexists _, (row_of_event e). split; [eapply event_to_row_run; eassumption|].
  cbn. split; [|by split].
  apply list_lookup_insert_eq. eapply lookup_lt_Some; eassumption.
Qed.

(** C2. For every instruction [i] and every destination row,
    [instr_to_row] completes and leaves a row whose [is_real] is the
    field's one and whose [addrs], [mult1] and [mult2] are those of [i]. *)
Theorem instr_to_row_copies m ir cl i p :
  instrs m !! ir = Some i ->
  prep m !! cl = Some p ->
  exists m' p',
    instr_to_row ir cl m = Some (tt, m')
    /\ prep m' !! cl = Some p'
    /\ SelectPreprocessedCols.is_real p' = one
    /\ SelectPreprocessedCols.addrs p' = SelectInstr.addrs i
    /\ SelectPreprocessedCols.mult1 p' = SelectInstr.mult1 i
    /\ SelectPreprocessedCols.mult2 p' = SelectInstr.mult2 i.
Proof.
  intros Hi Hp.
  eexists _, (row_of_instr i). split; [eapply instr_to_row_run; eassumption|].
  cbn. split; [|done].
  apply list_lookup_insert_eq. eapply lookup_lt_Some; eassumption.
Qed.

(** C3. Two instructions with the same [addrs] and swapped multiplicities
    ([mult1 = 1, mult2 = 0] against [mult1 = 0, mult2 = 1]), materialised
    in two stores whose events and earlier row contents are arbitrary,
    give rows with equal [addrs] and the multiplicity pair flipped: the
    multiplicities of a row are those of its instruction, whatever the
    events hold. *)
Theorem instr_to_row_swapped_mults m1 m2 ir1 ir2 cl1 cl2 i1 i2 p1 p2 :
  instrs m1 !! ir1 = Some i1 ->
  instrs m2 !! ir2 = Some i2 ->
  prep m1 !! cl1 = Some p1 ->
  prep m2 !! cl2 = Some p2 ->
  SelectInstr.addrs i1 = SelectInstr.addrs i2 ->
  SelectInstr.mult1 i1 = one -> SelectInstr.mult2 i1 = zero ->
  SelectInstr.mult1 i2 = zero -> SelectInstr.mult2 i2 = one ->
  exists m1' m2' q1 q2,
    instr_to_row ir1 cl1 m1 = Some (tt, m1')
    /\ instr_to_row ir2 cl2 m2 = Some (tt, m2')
    /\ prep m1' !! cl1 = Some q1
    /\ prep m2' !! cl2 = Some q2
    /\ SelectPreprocessedCols.addrs q1 = SelectPreprocessedCols.addrs q2
    /\ SelectPreprocessedCols.mult1 q1 = one
    /\ SelectPreprocessedCols.mult2 q1 = zero
    /\ SelectPreprocessedCols.mult1 q2 = zero
    /\ SelectPreprocessedCols.mult2 q2 = one.
Proof.
  intros Hi1 Hi2 Hp1 Hp2 Ha H11 H12 H21 H22.
  eexists _, _, (row_of_instr i1), (row_of_instr i2).
  split; [eapply instr_to_row_run; eassumption|].
  split; [eapply instr_to_row_run; eassumption|].
  cbn. split; [|split]; [| |done].
  - apply list_lookup_insert_eq. eapply lookup_lt_Some; eassumption.
  - apply list_lookup_insert_eq. eapply lookup_lt_Some; eassumption.
Qed.

(** C5. A row of the preprocessed matrix that starts out as the all-zero
    default and is the destination of no [instr_to_row] invocation of the
    schedule reads back, after the schedule has run, with [is_real = 0]
    and [addrs], [mult1] and [mult2] at the additive identity. *)
Theorem padding_rows_read_zero m s j m' :
  prep m !! j = Some padding_row ->
  InstrRow j ∉ s ->
  materialize s m = Some (tt, m') ->
  exists p,
    prep m' !! j = Some p
    /\ SelectPreprocessedCols.is_real p = zero
    /\ (forall k : fin NA, SelectPreprocessedCols.addrs p !!! k = zero)
    /\ SelectPreprocessedCols.mult1 p = zero
    /\ SelectPreprocessedCols.mult2 p = zero.
Proof.
  intros Hpad Hj Hrun. exists padding_row.
  split; [by rewrite (materialize_prep_other s j Hj _ _ _ Hrun)|].
  cbn. split; [done|]. split; [|done].
  intros k. apply vlookup_replicate.
Qed.

(** C6. Both templates are total: whenever the two references designate an
    object (an input record and a destination row, whose tuple lengths
    agree by their types), the invocation completes with a store. *)
Theorem materializers_total m :
  (forall ev cl,
      ev < length (events m) -> cl < length (cols m) ->
      exists m', event_to_row ev cl m = Some (tt, m'))
  /\ (forall ir cl,
      ir < length (instrs m) -> cl < length (prep m) ->
      exists m', instr_to_row ir cl m = Some (tt, m')).
Proof.
  split.
  - intros ev cl [e He]%lookup_lt_is_Some_2 [c Hc]%lookup_lt_is_Some_2.
    eexists. eapply event_to_row_run; eassumption.
  - intros ir cl [i Hi]%lookup_lt_is_Some_2 [p Hp]%lookup_lt_is_Some_2.
    eexists. eapply instr_to_row_run; eassumption.
Qed.

(** C7. Materialising the same sequences twice gives the same matrices.
    The two runs start from stores that hold the same events and
    instructions and matrices of the same size, which may differ in every
    row the schedule writes; the per-row invocations are run one after the
    other in the order of [s1], one after the other in another order [s2],
    or at the same time, as any arrangement [l] of their statements (every
    interleaving that keeps the program order of each invocation is one);
    row [k] is always filled from element [k].  Every such run completes,
    and all of them leave the same store: each written row is a function of
    its input record alone. *)
Theorem materialize_schedule_independent m1 m2 s1 s2 l :
  events m1 = events m2 ->
  instrs m1 = instrs m2 ->
  length (cols m1) = length (cols m2) ->
  length (prep m1) = length (prep m2) ->
  (forall j, EventRow j ∉ s1 -> cols m1 !! j = cols m2 !! j) ->
  (forall j, InstrRow j ∉ s1 -> prep m1 !! j = prep m2 !! j) ->
  s1 ≡ₚ s2 ->
  l ≡ₚ stmts s2 ->
  Forall (task_ok m1) s1 ->
  exists m',
    materialize s1 m1 = Some (tt, m')
    /\ materialize s2 m2 = Some (tt, m')
    /\ run_stmts l m1 = Some (tt, m')
    /\ run_stmts l m2 = Some (tt, m').
Proof.
  intros Hev Hin Hlc Hlp Hcols Hprep Hperm Hl Hok1.
  assert (Hok2 : Forall (task_ok m2) s1).
  { eapply Forall_impl; [exact Hok1|].
    intros [k|k]; cbn; rewrite ?Hev, ?Hin, ?Hlc, ?Hlp; done. }
  destruct (materialize_total s1 m1 Hok1) as [m1' E1].
  destruct (materialize_total s1 m2 Hok2) as [m2' E2].
  assert (Heq : m1' = m2').
  { destruct (materialize_lookup _ _ _ E1) as (He1 & Hi1 & Hc1 & Hp1).
    destruct (materialize_lookup _ _ _ E2) as (He2 & Hi2 & Hc2 & Hp2).
    apply mem_eq; [congruence|congruence| |]; apply list_eq; intros j.
    - rewrite Hc1, Hc2, Hev. case_decide; [reflexivity|now apply Hcols].
    - rewrite Hp1, Hp2, Hin. case_decide; [reflexivity|now apply Hprep]. }
  subst m2'.
  assert (Hst : forall m, run_stmts l m = materialize s1 m).
  { intros m. rewrite materialize_stmts. apply run_stmts_perm.
    rewrite Hl. unfold stmts. now rewrite Hperm. }
  exists m1'. split; [exact E1|]. split.
  - rewrite materialize_stmts, <- E2, materialize_stmts.
    apply run_stmts_perm. unfold stmts. now rewrite Hperm.
  - now rewrite !Hst.
Qed.

(** C9. An invocation that completes leaves the events and the
    instructions as they were, leaves the other matrix untouched, and in
    the matrix of its destination changes no row but the destination. *)
Theorem materializers_frame m m' u :
  (forall ev cl,
      event_to_row ev cl m = Some (u, m') ->
      events m' = events m /\ instrs m' = instrs m /\ prep m' = prep m
      /\ length (cols m') = length (cols m)
      /\ forall j, j <> cl -> cols m' !! j = cols m !! j)
  /\ (forall ir cl,
      instr_to_row ir cl m = Some (u, m') ->
      events m' = events m /\ instrs m' = instrs m /\ cols m' = cols m
      /\ length (prep m') = length (prep m)
      /\ forall j, j <> cl -> prep m' !! j = prep m !! j).
Proof.
  split.
  - intros ev cl Hrun.
    destruct (event_to_row_inv _ _ _ _ _ Hrun) as (e & c & He & Hc).
    rewrite (event_to_row_run _ _ _ _ _ He Hc) in Hrun.
    injection Hrun as _ <-. cbn. repeat split.
    + apply length_insert.
    + intros j Hj. by apply list_lookup_insert_ne.
  - intros ir cl Hrun.
    destruct (instr_to_row_inv _ _ _ _ _ Hrun) as (i & p & Hi & Hp).
    rewrite (instr_to_row_run _ _ _ _ _ Hi Hp) in Hrun.
    injection Hrun as _ <-. cbn. repeat split.
    + apply length_insert.
    + intros j Hj. by apply list_lookup_insert_ne.
Qed.

(** C10. The row an invocation leaves does not depend on what the
    destination held before: the same event (respectively instruction)
    written over two destination rows in arbitrary states, in arbitrary
    stores, leaves the two rows equal. *)
Theorem materializers_overwrite m1 m2 cl1 cl2 :
  (forall ev1 ev2 e c1 c2,
      events m1 !! ev1 = Some e -> events m2 !! ev2 = Some e ->
      cols m1 !! cl1 = Some c1 -> cols m2 !! cl2 = Some c2 ->
      exists m1' m2' c',
        event_to_row ev1 cl1 m1 = Some (tt, m1')
        /\ event_to_row ev2 cl2 m2 = Some (tt, m2')
        /\ cols m1' !! cl1 = Some c' /\ cols m2' !! cl2 = Some c')
  /\ (forall ir1 ir2 i p1 p2,
      instrs m1 !! ir1 = Some i -> instrs m2 !! ir2 = Some i ->
      prep m1 !! cl1 = Some p1 -> prep m2 !! cl2 = Some p2 ->
      exists m1' m2' p',
        instr_to_row ir1 cl1 m1 = Some (tt, m1')
        /\ instr_to_row ir2 cl2 m2 = Some (tt, m2')
        /\ prep m1' !! cl1 = Some p' /\ prep m2' !! cl2 = Some p').
Proof.
  split.
  - intros ev1 ev2 e c1 c2 He1 He2 Hc1 Hc2.
    eexists _, _, (row_of_event e).
    split; [eapply event_to_row_run; eassumption|].
    split; [eapply event_to_row_run; eassumption|].
    cbn. split; apply list_lookup_insert_eq; eapply lookup_lt_Some; eassumption.
  - intros ir1 ir2 i p1 p2 Hi1 Hi2 Hp1 Hp2.
    eexists _, _, (row_of_instr i).
    split; [eapply instr_to_row_run; eassumption|].
    split; [eapply instr_to_row_run; eassumption|].
    cbn. split; apply list_lookup_insert_eq; eapply lookup_lt_Some; eassumption.
Qed.

End SelectClaims.

(** C4. The scenario with branch A selected: the event [(7, 1, 2, 42)]
    materialises to the main-trace row [(7, 1, 2, 42)], and the instruction
    with [addrs = (7, 1, 2)], [mult1 = 1], [mult2 = 0] to the preprocessed
    row [(is_real = 1, addrs = (7, 1, 2), mult1 = 1, mult2 = 0)], for any
    element type, [num] reading the numerals of addresses and values in
    it. *)
Theorem select_scenario_branch_a {F : Type} `{!Field F} (num : Z -> F)
    (m : mem F 4 3) (ev ir cl pl : nat)
    (c : SelectCols F 4) (p : SelectPreprocessedCols.t F 3) :
  events m !! ev = Some [# num 7; num 1; num 2; num 42]%Z ->
  instrs m !! ir = Some (SelectInstr.mk [# num 7; num 1; num 2]%Z one zero) ->
  cols m !! cl = Some c ->
  prep m !! pl = Some p ->
  exists m1 m2,
    event_to_row ev cl m = Some (tt, m1)
    /\ cols m1 !! cl = Some (MkSelectCols [# num 7; num 1; num 2; num 42]%Z)
    /\ instr_to_row ir pl m = Some (tt, m2)
    /\ prep m2 !! pl
       = Some (SelectPreprocessedCols.mk
                 one [# num 7; num 1; num 2]%Z one zero).
Proof.
  intros He Hi Hc Hp. eexists _, _.
  split; [eapply event_to_row_run; eassumption|].
  split; [cbn; apply list_lookup_insert_eq; eapply lookup_lt_Some; eassumption|].
  split; [eapply instr_to_row_run; eassumption|].
  cbn. apply list_lookup_insert_eq. eapply lookup_lt_Some; eassumption.
Qed.

(** * The claims at concrete inputs *)

Lemma event_to_row_roundtrip_witness :
  exists m' c',
    event_to_row 0 0 scenario_a = Some (tt, m')
    /\ cols m' !! 0 = Some c'
    /\ vals c' = [# 7; 1; 2; 42]%Z
    /\ forall k : fin 4, vals c' !!! k = [# 7; 1; 2; 42]%Z !!! k.
Proof.
  exact (event_to_row_roundtrip scenario_a 0 0 _ _ eq_refl eq_refl).
Defined.

Lemma instr_to_row_copies_witness :
  exists m' p',
    instr_to_row 0 0 scenario_a = Some (tt, m')
    /\ prep m' !! 0 = Some p'
    /\ SelectPreprocessedCols.is_real p' = 1%Z
    /\ SelectPreprocessedCols.addrs p' = [# 7; 1; 2]%Z
    /\ SelectPreprocessedCols.mult1 p' = 1%Z
    /\ SelectPreprocessedCols.mult2 p' = 0%Z.
Proof.
  exact (instr_to_row_copies scenario_a 0 0 _ _ eq_refl eq_refl).
Defined.

Lemma instr_to_row_swapped_mults_witness :
  exists m1' m2' q1 q2,
    instr_to_row 0 0 scenario_a = Some (tt, m1')
    /\ instr_to_row 0 0 scenario_b = Some (tt, m2')
    /\ prep m1' !! 0 = Some q1
    /\ prep m2' !! 0 = Some q2
    /\ SelectPreprocessedCols.addrs q1 = SelectPreprocessedCols.addrs q2
    /\ SelectPreprocessedCols.mult1 q1 = 1%Z
    /\ SelectPreprocessedCols.mult2 q1 = 0%Z
    /\ SelectPreprocessedCols.mult1 q2 = 0%Z
    /\ SelectPreprocessedCols.mult2 q2 = 1%Z.
Proof.
  exact (instr_to_row_swapped_mults scenario_a scenario_b 0 0 0 0 _ _ _ _
           eq_refl eq_refl eq_refl eq_refl eq_refl
           eq_refl eq_refl eq_refl eq_refl).
Defined.

Lemma select_scenario_branch_a_witness :
  exists m1 m2,
    event_to_row 0 0 scenario_a = Some (tt, m1)
    /\ cols m1 !! 0 = Some (MkSelectCols [# 7; 1; 2; 42]%Z)
    /\ instr_to_row 0 0 scenario_a = Some (tt, m2)
    /\ prep m2 !! 0
       = Some (SelectPreprocessedCols.mk 1%Z [# 7; 1; 2]%Z 1%Z 0%Z).
Proof.
  exact (select_scenario_branch_a (fun z => z) scenario_a 0 0 0 0 _ _
           eq_refl eq_refl eq_refl eq_refl).
Defined.

Lemma padding_rows_read_zero_witness :
  exists m',
    materialize [InstrRow 1; EventRow 0; InstrRow 0; EventRow 1] scenario_padded
    = Some (tt, m')
    /\ exists p,
      prep m' !! 2 = Some p
      /\ SelectPreprocessedCols.is_real p = 0%Z
      /\ (forall k : fin 3, SelectPreprocessedCols.addrs p !!! k = 0%Z)
      /\ SelectPreprocessedCols.mult1 p = 0%Z
      /\ SelectPreprocessedCols.mult2 p = 0%Z.
Proof.
  eexists. split; [vm_compute; reflexivity|].
  refine (padding_rows_read_zero scenario_padded
            [InstrRow 1; EventRow 0; InstrRow 0; EventRow 1] 2 _ _ _ _).
  - reflexivity.
  - apply (bool_decide_unpack _). vm_compute. exact I.
  - vm_compute. reflexivity.
Defined.

Lemma materializers_total_witness :
  (exists m', event_to_row 0 0 scenario_a = Some (tt, m'))
  /\ (exists m', instr_to_row 0 0 scenario_a = Some (tt, m')).
Proof.
  destruct (materializers_total scenario_a) as [He Hi]. split.
  - apply He; cbn; lia.
  - apply Hi; cbn; lia.
Defined.

Lemma materialize_schedule_independent_witness :
  exists m',
    materialize [EventRow 0; InstrRow 0; EventRow 1; InstrRow 1] scenario_padded
    = Some (tt, m')
    /\ materialize [InstrRow 1; EventRow 1; InstrRow 0; EventRow 0] scenario_dirty
       = Some (tt, m')
    /\ run_stmts [AssignIsReal 1; AssignIsReal 0; AssignVals 1; AssignAddrs 0;
                  AssignAddrs 1; AssignMult1 1; AssignVals 0; AssignMult1 0;
                  AssignMult2 0; AssignMult2 1] scenario_padded
       = Some (tt, m')
    /\ run_stmts [AssignIsReal 1; AssignIsReal 0; AssignVals 1; AssignAddrs 0;
                  AssignAddrs 1; AssignMult1 1; AssignVals 0; AssignMult1 0;
                  AssignMult2 0; AssignMult2 1] scenario_dirty
       = Some (tt, m').
Proof.
  apply (materialize_schedule_independent scenario_padded scenario_dirty
           [EventRow 0; InstrRow 0; EventRow 1; InstrRow 1]
           [InstrRow 1; EventRow 1; InstrRow 0; EventRow 0]).
  - reflexivity.
  - reflexivity.
  - reflexivity.
  - reflexivity.
  - intros [|[|j]] Hj; [| |reflexivity];
      exfalso; apply Hj; apply (bool_decide_unpack _); vm_compute; exact I.
  - intros [|[|j]] Hj; [| |reflexivity];
      exfalso; apply Hj; apply (bool_decide_unpack _); vm_compute; exact I.
  - apply (bool_decide_unpack _). vm_compute. exact I.
  - apply (bool_decide_unpack _). vm_compute. exact I.
  - repeat constructor; cbn; lia.
Defined.

Lemma materializers_frame_witness :
  (exists m',
      event_to_row 0 1 scenario_padded = Some (tt, m')
      /\ events m' = events scenario_padded
      /\ instrs m' = instrs scenario_padded
      /\ prep m' = prep scenario_padded
      /\ length (cols m') = length (cols scenario_padded)
      /\ forall j, j <> 1 -> cols m' !! j = cols scenario_padded !! j)
  /\ (exists m',
      instr_to_row 0 1 scenario_padded = Some (tt, m')
      /\ events m' = events scenario_padded
      /\ instrs m' = instrs scenario_padded
      /\ cols m' = cols scenario_padded
      /\ length (prep m') = length (prep scenario_padded)
      /\ forall j, j <> 1 -> prep m' !! j = prep scenario_padded !! j).
Proof.
  split; eexists; (split; [vm_compute; reflexivity|]).
  - refine (proj1 (materializers_frame scenario_padded _ tt) 0 1 _).
    vm_compute. reflexivity.
  - refine (proj2 (materializers_frame scenario_padded _ tt) 0 1 _).
    vm_compute. reflexivity.
Defined.

Lemma materializers_overwrite_witness :
  (exists m1' m2' c',
      event_to_row 0 0 scenario_padded = Some (tt, m1')
      /\ event_to_row 0 0 scenario_a = Some (tt, m2')
      /\ cols m1' !! 0 = Some c' /\ cols m2' !! 0 = Some c')
  /\ (exists m1' m2' p',
      instr_to_row 0 0 scenario_padded = Some (tt, m1')
      /\ instr_to_row 0 0 scenario_a = Some (tt, m2')
      /\ prep m1' !! 0 = Some p' /\ prep m2' !! 0 = Some p').
Proof.
  destruct (materializers_overwrite scenario_padded scenario_a 0 0) as [He Hi].
  split.
  - exact (He 0 0 _ _ _ eq_refl eq_refl eq_refl eq_refl).
  - exact (Hi 0 0 _ _ _ eq_refl eq_refl eq_refl eq_refl).
Defined.

(** * Further properties of the two templates *)

Section SelectCompose.
Context {F : Type} `{!Field F} {NV NA : nat}.

Local Abbreviation mem := (mem F NV NA).

Implicit Types (m : mem) (e : SelectEvent F NV) (c : SelectCols F NV).
Implicit Types (i : SelectInstr.t F NA) (p : SelectPreprocessedCols.t F NA).

(** *** Writing a row again *)

(** [event_to_row_ref] on references into the events is [event_to_row]. *)
Lemma event_to_row_ref_events m k cl :
  event_to_row_ref (InEvents k) cl m = event_to_row k cl m.
Proof. reflexivity. Qed.

Lemma event_to_row_ref_spec m r cl :
  event_to_row_ref r cl m
  = match deref m r, cols m !! cl with
    | Some e, Some _ =>
        Some (tt, Mem (events m) (instrs m)
                      (<[cl := row_of_event e]> (cols m)) (prep m))
    | _, _ => None
    end.
Proof.
  unfold event_to_row_ref, mbind, St_bind, load_event_ref, store_cols.
  destruct (deref m r) as [e|]; [cbn|reflexivity].
  destruct (cols m !! cl) as [c|] eqn:Hc; [|reflexivity].
  now rewrite (alter_lookup_insert _ _ _ _ Hc).
Qed.

(** A write to row [cl] changes what a reference designates only when the
    reference is to the [vals] of row [cl]. *)
Lemma deref_write_other m r cl x :
  r <> InRow cl ->
  deref (Mem (events m) (instrs m) (<[cl := x]> (cols m)) (prep m)) r
  = deref m r.
Proof.
  intros Hne. destruct r as [k|k]; cbn; [reflexivity|].
  rewrite list_lookup_insert_ne by congruence. reflexivity.
Qed.

(** A second [event_to_row] on the same destination row replaces what the
    first one wrote, provided it does not read its event from that very row:
    the two invocations in sequence leave the store that the second alone
    leaves.  In particular, repeating an invocation changes nothing. *)
Theorem event_to_row_last_write m r1 r2 cl :
  is_Some (deref m r1) ->
  r2 <> InRow cl ->
  (event_to_row_ref r1 cl;; event_to_row_ref r2 cl) m
  = event_to_row_ref r2 cl m.
Proof.
  intros [e1 He1] Hne.
  unfold mbind, St_bind. rewrite (event_to_row_ref_spec m r1), He1.
  destruct (cols m !! cl) as [c|] eqn:Hc.
  - rewrite !event_to_row_ref_spec, deref_write_other by exact Hne.
    cbn [events instrs cols prep].
    rewrite Hc, (lookup_insert_same _ _ _ _ Hc).
    destruct (deref m r2); [|reflexivity].
    now rewrite list_insert_insert_eq.
  - rewrite event_to_row_ref_spec, Hc. now destruct (deref m r2).
Qed.

(** The condition is needed: when the second invocation reads the [vals] of
    the destination row, the sequence keeps the event of the first, and the
    second alone keeps the row as it was. *)
Example event_to_row_reads_own_row :
  cols <$> (snd <$> (event_to_row_ref (InEvents 0) 2;;
                     event_to_row_ref (InRow 2) 2) scenario_rows)
  = Some [ MkSelectCols [# 0; 0; 0; 0]%Z; MkSelectCols [# 1; 1; 1; 1]%Z;
           MkSelectCols [# 7; 1; 2; 42]%Z ]
  /\ cols <$> (snd <$> event_to_row_ref (InRow 2) 2 scenario_rows)
     = Some [ MkSelectCols [# 0; 0; 0; 0]%Z; MkSelectCols [# 1; 1; 1; 1]%Z;
              MkSelectCols [# 2; 2; 2; 2]%Z ].
Proof. split; reflexivity. Qed.

(** A second [instr_to_row] on the same destination row replaces all four
    members the first one wrote. *)
Theorem instr_to_row_last_write m ir1 ir2 cl :
  ir1 < length (instrs m) ->
  (instr_to_row ir1 cl;; instr_to_row ir2 cl) m = instr_to_row ir2 cl m.
Proof.
  intros [i1 Hi1]%lookup_lt_is_Some_2.
  unfold mbind, St_bind. rewrite (instr_to_row_spec m ir1), Hi1.
  destruct (prep m !! cl) as [p|] eqn:Hp.
  - rewrite !instr_to_row_spec. cbn [events instrs cols prep].
    rewrite Hp, (lookup_insert_same _ _ _ _ Hp).
    destruct (instrs m !! ir2); [|reflexivity].
    now rewrite list_insert_insert_eq.
  - rewrite instr_to_row_spec, Hp. now destruct (instrs m !! ir2).
Qed.

(** *** Invocations that do not share a destination *)

(** [event_to_row] and [instr_to_row] commute, whatever their four
    references are: the one writes the main trace and reads the events, the
    other writes the preprocessed trace and reads the instructions. *)
Theorem event_to_row_instr_to_row_commute m ev cl ir pl :
  (event_to_row ev cl;; instr_to_row ir pl) m
  = (instr_to_row ir pl;; event_to_row ev cl) m.
Proof.
  unfold mbind, St_bind.
  rewrite (event_to_row_spec m), (instr_to_row_spec m).
  destruct (events m !! ev) as [e|] eqn:He, (cols m !! cl) as [c|] eqn:Hc,
    (instrs m !! ir) as [i|] eqn:Hi, (prep m !! pl) as [p|] eqn:Hp;
    rewrite ?event_to_row_spec, ?instr_to_row_spec;
    cbn [events instrs cols prep]; rewrite ?He, ?Hc, ?Hi, ?Hp; reflexivity.
Qed.

(** Two invocations of the same template on different destination rows
    commute when neither reads the row the other writes; two [event_to_row]
    may read the same event, two [instr_to_row] the same instruction (an
    instruction is never part of a row). *)
Theorem distinct_rows_commute m cl1 cl2 :
  cl1 <> cl2 ->
  (forall r1 r2,
      r1 <> InRow cl2 -> r2 <> InRow cl1 ->
      (event_to_row_ref r1 cl1;; event_to_row_ref r2 cl2) m
      = (event_to_row_ref r2 cl2;; event_to_row_ref r1 cl1) m)
  /\ (forall ir1 ir2,
      (instr_to_row ir1 cl1;; instr_to_row ir2 cl2) m
      = (instr_to_row ir2 cl2;; instr_to_row ir1 cl1) m).
Proof.
  intros Hne. split.
  - intros r1 r2 Hr1 Hr2. unfold mbind, St_bind.
    rewrite !(event_to_row_ref_spec m).
    destruct (deref m r1) as [e1|] eqn:He1, (deref m r2) as [e2|] eqn:He2,
      (cols m !! cl1) as [c1|] eqn:Hc1, (cols m !! cl2) as [c2|] eqn:Hc2;
      rewrite ?event_to_row_ref_spec, ?deref_write_other by assumption;
      cbn [events instrs cols prep];
      rewrite ?He1, ?He2, ?list_lookup_insert_ne, ?Hc1, ?Hc2 by congruence;
      try reflexivity.
    now rewrite list_insert_insert_ne.
  - intros ir1 ir2. unfold mbind, St_bind. rewrite !(instr_to_row_spec m).
    destruct (instrs m !! ir1) as [i1|] eqn:Hi1,
      (instrs m !! ir2) as [i2|] eqn:Hi2,
      (prep m !! cl1) as [p1|] eqn:Hp1, (prep m !! cl2) as [p2|] eqn:Hp2;
      rewrite ?instr_to_row_spec; cbn [events instrs cols prep];
      rewrite ?Hi1, ?Hi2, ?list_lookup_insert_ne, ?Hp1, ?Hp2 by congruence;
      try reflexivity.
    now rewrite list_insert_insert_ne.
Qed.

(** The condition is needed: an invocation that reads the [vals] of row 2
    into row 1 does not commute with one that writes row 2. *)
Example event_to_row_reads_written_row :
  cols <$> (snd <$> (event_to_row_ref (InRow 2) 1;;
                     event_to_row_ref (InEvents 0) 2) scenario_rows)
  = Some [ MkSelectCols [# 0; 0; 0; 0]%Z; MkSelectCols [# 2; 2; 2; 2]%Z;
           MkSelectCols [# 7; 1; 2; 42]%Z ]
  /\ cols <$> (snd <$> (event_to_row_ref (InEvents 0) 2;;
                        event_to_row_ref (InRow 2) 1) scenario_rows)
     = Some [ MkSelectCols [# 0; 0; 0; 0]%Z; MkSelectCols [# 7; 1; 2; 42]%Z;
              MkSelectCols [# 7; 1; 2; 42]%Z ].
Proof. split; reflexivity. Qed.

End SelectCompose.

(** * Further properties of a materialised trace *)

Section SelectTrace.
Context {F : Type} `{!Field F} {NV NA : nat}.

Local Abbreviation mem := (mem F NV NA).

Implicit Types (m : mem) (e : SelectEvent F NV) (c : SelectCols F NV).
Implicit Types (i : SelectInstr.t F NA) (p : SelectPreprocessedCols.t F NA).

(** *** Row by row *)

(** After a run of any schedule, row [j] of the main trace is the row of
    event [j] when the schedule holds the invocation for it and is untouched
    otherwise; likewise row [j] of the preprocessed trace and instruction
    [j].  Events and instructions are as before. *)
Theorem materialize_rows s :
  forall m m',
    materialize s m = Some (tt, m') ->
    events m' = events m /\ instrs m' = instrs m
    /\ (forall j, cols m' !! j
                  = if decide (EventRow j ∈ s)
                    then row_of_event <$> events m !! j else cols m !! j)
    /\ (forall j, prep m' !! j
                  = if decide (InstrRow j ∈ s)
                    then row_of_instr <$> instrs m !! j else prep m !! j).
Proof. exact (materialize_lookup s). Qed.

(** *** The shape of the trace *)

(** A run never adds or drops a row: both matrices keep their number of
    rows, and the input sequences are left as they were. *)
Theorem materialize_keeps_shape s m m' :
  materialize s m = Some (tt, m') ->
  events m' = events m /\ instrs m' = instrs m
  /\ length (cols m') = length (cols m)
  /\ length (prep m') = length (prep m).
Proof.
  intros Hrun.
  pose proof (materialize_ok_inv _ _ _ _ Hrun) as Hok.
  destruct (materialize_lookup _ _ _ Hrun) as (He & Hi & Hc & Hp).
  do 2 (split; [assumption|]). split.
  - apply lookup_length_eq. intros j. rewrite Hc. case_decide as Hj; [|done].
    rewrite Forall_forall in Hok. destruct (Hok _ Hj) as [Hke Hkc].
    rewrite fmap_is_Some. split; intros _; now apply lookup_lt_is_Some_2.
  - apply lookup_length_eq. intros j. rewrite Hp. case_decide as Hj; [|done].
    rewrite Forall_forall in Hok. destruct (Hok _ Hj) as [Hki Hkp].
    rewrite fmap_is_Some. split; intros _; now apply lookup_lt_is_Some_2.
Qed.

(** *** Schedules with the same invocations *)

(** Only the set of invocations of a schedule matters: two schedules with
    the same invocations, in any order and however often each is repeated,
    leave the same store (or both meet a bad reference). *)
Theorem materialize_same_tasks s1 s2 m :
  (forall t, t ∈ s1 <-> t ∈ s2) ->
  materialize s1 m = materialize s2 m.
Proof.
  intros Hsame.
  assert (Hoks : Forall (task_ok m) s1 <-> Forall (task_ok m) s2).
  { rewrite !Forall_forall. split; intros Hok t Ht; apply Hok, Hsame, Ht. }
  destruct (materialize s1 m) as [[[] m1]|] eqn:E1.
  - pose proof (materialize_ok_inv _ _ _ _ E1) as Hok1.
    destruct (materialize_total s2 m (proj1 Hoks Hok1)) as [m2 E2].
    rewrite E2. do 2 f_equal.
    destruct (materialize_lookup _ _ _ E1) as (He1 & Hi1 & Hc1 & Hp1).
    destruct (materialize_lookup _ _ _ E2) as (He2 & Hi2 & Hc2 & Hp2).
    apply mem_eq; [congruence|congruence| |].
    + apply list_eq. intros j. rewrite Hc1, Hc2.
      destruct (decide (EventRow j ∈ s1)) as [Hin|Hout].
      * now rewrite decide_True by now apply Hsame.
      * now rewrite decide_False by now rewrite <- Hsame.
    + apply list_eq. intros j. rewrite Hp1, Hp2.
      destruct (decide (InstrRow j ∈ s1)) as [Hin|Hout].
      * now rewrite decide_True by now apply Hsame.
      * now rewrite decide_False by now rewrite <- Hsame.
  - destruct (materialize s2 m) as [[[] m2]|] eqn:E2; [|reflexivity].
    pose proof (materialize_ok_inv _ _ _ _ E2) as Hok2.
    destruct (materialize_total s1 m (proj2 Hoks Hok2)) as [m1 E1'].
    congruence.
Qed.

(** *** Whole matrices *)

(** When the schedule holds the invocation of every event and of every
    instruction, and of nothing else, the main trace ends up as the rows of
    the events, in order, followed by the rows that were there beyond them,
    and the preprocessed trace as the rows of the instructions followed by
    the rows beyond them, whatever the matrices held before in the rows that
    are written. *)
Theorem materialize_full_trace s m m' :
  (forall j, EventRow j ∈ s <-> j < length (events m)) ->
  (forall j, InstrRow j ∈ s <-> j < length (instrs m)) ->
  materialize s m = Some (tt, m') ->
  cols m' = (row_of_event <$> events m) ++ drop (length (events m)) (cols m)
  /\ prep m' = (row_of_instr <$> instrs m) ++ drop (length (instrs m)) (prep m).
Proof.
  intros Hev Hin Hrun.
  destruct (materialize_lookup _ _ _ Hrun) as (_ & _ & Hc & Hp).
  split; apply list_eq; intros j.
  - rewrite Hc. case_decide as Hj.
    + apply Hev in Hj.
      now rewrite lookup_app_l, list_lookup_fmap by now rewrite length_fmap.
    + rewrite Hev in Hj.
      rewrite lookup_app_r, length_fmap, lookup_drop by (rewrite length_fmap; lia).
      f_equal. lia.
  - rewrite Hp. case_decide as Hj.
    + apply Hin in Hj.
      now rewrite lookup_app_l, list_lookup_fmap by now rewrite length_fmap.
    + rewrite Hin in Hj.
      rewrite lookup_app_r, length_fmap, lookup_drop by (rewrite length_fmap; lia).
      f_equal. lia.
Qed.

(** *** The flag of real rows *)

(** Starting from a preprocessed trace of padding rows, in a field where
    [one] differs from [zero], the rows that read [is_real = 1] after a run
    are exactly the rows whose invocation the schedule holds. *)
Theorem is_real_marks_materialized s m m' j p :
  one <> zero :> F ->
  (forall k q, prep m !! k = Some q -> q = padding_row) ->
  materialize s m = Some (tt, m') ->
  prep m' !! j = Some p ->
  SelectPreprocessedCols.is_real p = one <-> InstrRow j ∈ s.
Proof.
  intros H10 Hpad Hrun Hj.
  destruct (materialize_lookup _ _ _ Hrun) as (_ & _ & _ & Hp).
  rewrite Hp in Hj. case_decide as Hin.
  - apply fmap_Some in Hj as (i & _ & ->). cbn. tauto.
  - apply Hpad in Hj as ->. cbn. split; [|tauto].
    intros Heq. now destruct H10.
Qed.

End SelectTrace.

(** * The further properties at concrete inputs *)

Lemma event_to_row_last_write_witness :
  (event_to_row_ref (InRow 0) 2;; event_to_row_ref (InEvents 1) 2) scenario_dirty
  = event_to_row_ref (InEvents 1) 2 scenario_dirty.
Proof.
  apply (event_to_row_last_write scenario_dirty (InRow 0) (InEvents 1) 2).
  - eexists. reflexivity.
  - discriminate.
Defined.

Lemma instr_to_row_last_write_witness :
  (instr_to_row 0 2;; instr_to_row 1 2) scenario_padded
  = instr_to_row 1 2 scenario_padded.
Proof.
  apply (instr_to_row_last_write scenario_padded 0 1 2). cbn. lia.
Defined.

Lemma distinct_rows_commute_witness :
  (event_to_row_ref (InRow 0) 1;; event_to_row_ref (InEvents 0) 2) scenario_dirty
  = (event_to_row_ref (InEvents 0) 2;; event_to_row_ref (InRow 0) 1) scenario_dirty
  /\ (instr_to_row 1 1;; instr_to_row 0 2) scenario_padded
     = (instr_to_row 0 2;; instr_to_row 1 1) scenario_padded.
Proof.
  assert (Hne : 1 <> 2) by lia.
  split.
  - apply (proj1 (distinct_rows_commute scenario_dirty 1 2 Hne)
             (InRow 0) (InEvents 0)); discriminate.
  - apply (proj2 (distinct_rows_commute scenario_padded 1 2 Hne) 1 0).
Defined.

Lemma materialize_rows_witness :
  exists m',
    materialize [InstrRow 1; EventRow 0] scenario_padded = Some (tt, m')
    /\ events m' = events scenario_padded
    /\ instrs m' = instrs scenario_padded
    /\ (forall j, cols m' !! j
                  = if decide (EventRow j ∈ [InstrRow 1; EventRow 0])
                    then row_of_event <$> events scenario_padded !! j
                    else cols scenario_padded !! j)
    /\ (forall j, prep m' !! j
                  = if decide (InstrRow j ∈ [InstrRow 1; EventRow 0])
                    then row_of_instr <$> instrs scenario_padded !! j
                    else prep scenario_padded !! j).
Proof.
  eexists. split; [vm_compute; reflexivity|].
  refine (materialize_rows [InstrRow 1; EventRow 0] scenario_padded _ _).
  vm_compute. reflexivity.
Defined.

Lemma materialize_keeps_shape_witness :
  exists m',
    materialize [InstrRow 1; EventRow 0; InstrRow 1] scenario_padded
    = Some (tt, m')
    /\ events m' = events scenario_padded
    /\ instrs m' = instrs scenario_padded
    /\ length (cols m') = 3
    /\ length (prep m') = 3.
Proof.
  eexists. split; [vm_compute; reflexivity|].
  refine (materialize_keeps_shape
            [InstrRow 1; EventRow 0; InstrRow 1] scenario_padded _ _).
  vm_compute. reflexivity.
Defined.

Lemma materialize_same_tasks_witness :
  materialize [InstrRow 0; EventRow 1; InstrRow 0] scenario_padded
  = materialize [EventRow 1; InstrRow 0] scenario_padded.
Proof.
  apply (materialize_same_tasks
           [InstrRow 0; EventRow 1; InstrRow 0] [EventRow 1; InstrRow 0]
           scenario_padded).
  intros t. rewrite !elem_of_cons, !elem_of_nil. tauto.
Defined.

Lemma materialize_full_trace_witness :
  exists m',
    materialize [InstrRow 1; EventRow 0; InstrRow 0; EventRow 1] scenario_padded
    = Some (tt, m')
    /\ cols m'
       = [ MkSelectCols [# 7; 1; 2; 42]%Z; MkSelectCols [# 8; 3; 4; 43]%Z;
           MkSelectCols [# 0; 0; 0; 0]%Z ]
    /\ prep m'
       = [ SelectPreprocessedCols.mk 1%Z [# 7; 1; 2]%Z 1%Z 0%Z;
           SelectPreprocessedCols.mk 1%Z [# 8; 3; 4]%Z 0%Z 1%Z;
           SelectPreprocessedCols.mk 0%Z [# 0; 0; 0]%Z 0%Z 0%Z ].
Proof.
  eexists. split; [vm_compute; reflexivity|].
  refine (materialize_full_trace
            [InstrRow 1; EventRow 0; InstrRow 0; EventRow 1]
            scenario_padded _ _ _ _).
  - intros j. rewrite !elem_of_cons, elem_of_nil. cbn. split.
    + intros [H|[H|[H|[H|[]]]]]; try discriminate H; injection H as ->; lia.
    + intros Hj. destruct j as [|[|j]]; [tauto|tauto|lia].
  - intros j. rewrite !elem_of_cons, elem_of_nil. cbn. split.
    + intros [H|[H|[H|[H|[]]]]]; try discriminate H; injection H as ->; lia.
    + intros Hj. destruct j as [|[|j]]; [tauto|tauto|lia].
  - vm_compute. reflexivity.
Defined.

Lemma is_real_marks_materialized_witness :
  exists m' p,
    materialize [InstrRow 1; EventRow 0] scenario_padded = Some (tt, m')
    /\ prep m' !! 1 = Some p
    /\ (SelectPreprocessedCols.is_real p = 1%Z
        <-> InstrRow 1 ∈ [InstrRow 1; EventRow 0]).
Proof.
  eexists _, _. split; [vm_compute; reflexivity|].
  split; [vm_compute; reflexivity|].
  refine (is_real_marks_materialized
            [InstrRow 1; EventRow 0] scenario_padded _ 1 _ _ _ _ _).
  - discriminate.
  - intros k q Hk. now apply lookup_replicate_1 in Hk as [-> _].
  - vm_compute. reflexivity.
  - vm_compute. reflexivity.
Defined.
